(** * cacher: a bounded key/value cache with TTL expiration

    Shallow embedding of [cache/cache.go].

    - The map [c.store] is a [gmap string entry].  Go leaves the order of
      [for k, v := range m] unspecified, so every loop over the map takes the
      order it is run in as an argument: a list of the map's key/entry pairs,
      required by the theorems to be a permutation of [map_to_list].
    - [time.Time] values all come from [time.Now()], so they carry a
      monotonic clock reading and [Before] and [Sub] work on it: a [Time] is
      that reading in nanoseconds, a signed 64-bit integer.  Every call of
      [time.Now()] is an argument of the operation that makes it.
    - Each method is modelled by its critical section: [c.mu] makes the
      methods atomic with respect to each other, so a sequential run of
      methods is a run of the program.
    - The goroutine [ttlEnforcer], its timer and its context are a small
      transition system over events. *)

From stdpp Require Import gmap strings list fin_maps.
From Stdlib Require Import ZArith Lia.

Local Open Scope Z_scope.

(** ** The pieces of Go's runtime the code uses *)

Abbreviation Time := Z (only parsing).
Abbreviation Duration := Z (only parsing).

Definition minDuration : Duration := - 2 ^ 63.
Definition maxDuration : Duration := 2 ^ 63 - 1.

(** Two's complement wrap-around of a 64-bit signed integer. *)
Definition wrap64 (z : Z) : Z := (z + 2 ^ 63) mod 2 ^ 64 - 2 ^ 63.

Definition int64 (z : Z) : Prop := minDuration <= z <= maxDuration.

(** A monotonic clock reading: nanoseconds since the process started, held
    in an int64. *)
Definition reading (t : Time) : Prop := 0 <= t <= maxDuration.

(** [t.Before(u)] on monotonic readings. *)
Definition Before (t u : Time) : bool := t <? u.

(** [t.Sub(u)] on monotonic readings ([time.subMono]): the difference,
    saturated to the range of [Duration]. *)
Definition Sub (t u : Time) : Duration :=
  let d := wrap64 (t - u) in
  if (d <? 0) && (u <? t) then maxDuration
  else if (0 <? d) && (t <? u) then minDuration
  else d.

(** [len(m)] *)
Definition len {A : Type} (m : gmap string A) : Z := Z.of_nat (base.size m).

(** The timer made by [time.NewTimer(d)]: it sends on its channel [C] once,
    no earlier than [when]; nothing in the code resets it. *)
Inductive timer :=
| TimerPending (when : Time)
| TimerReady
| TimerDrained.

(** Where the goroutine running [ttlEnforcer] stands. *)
Inductive goroutine :=
| EnforcerSpawned
| EnforcerSelect (t : timer)
| EnforcerReturned.

(** How many times the goroutine can still receive from its timer. *)
Definition sweeps_left (g : goroutine) : nat :=
  match g with
  | EnforcerSpawned => 1
  | EnforcerSelect (TimerPending _) => 1
  | EnforcerSelect TimerReady => 1
  | EnforcerSelect TimerDrained => 0
  | EnforcerReturned => 0
  end.

(** ** The cache *)

Section Model.
Context {any : Type}.

Record entry := mkEntry { value : any; time : Time }.

Record Cache := mkCache {
  store : gmap string entry;
  size : Z;
  ttl : Duration
}.

Definition with_store (c : Cache) (m : gmap string entry) : Cache :=
  {| store := m; size := size c; ttl := ttl c |}.

(** [New]: the returned pair and the goroutines started by the call. *)
Definition New (size : Z) (ttl : Duration)
  : (option Cache * option string) * list goroutine :=
  if size <=? 0 then
    ((None, Some "size should be greater than zero"), [])
  else if ttl <=? 0 then
    ((None, Some "ttl should be greater than zero"), [])
  else
    let storage : gmap string entry := ∅ in
    let cache := {| store := storage; size := size; ttl := ttl |} in
    ((Some cache, None), [EnforcerSpawned]).

(** [Get]: the returned pair and the cache after the call. *)
Definition Get (nil : any) (key : string) (c : Cache) : (any * bool) * Cache :=
  match store c !! key with
  | Some value0 => ((value value0, true), c)
  | None => ((nil, false), c)
  end.

(** A run of [Get] calls, one per key of [keys]. *)
Fixpoint Gets (nil : any) (keys : list string) (c : Cache)
  : list (any * bool) * Cache :=
  match keys with
  | [] => ([], c)
  | key :: keys' =>
      let r := Get nil key c in
      let rs := Gets nil keys' r.2 in
      (r.1 :: rs.1, rs.2)
  end.

(** The loop of [evictLRU]: the pair [(minTime, key)] after the scan. *)
Definition evictLRU_scan (now : Time) (order : list (string * entry))
  : Time * string :=
  foldl (fun acc kv =>
           if Before (time kv.2) acc.1 then (time kv.2, kv.1) else acc)
        (now, "") order.

Definition evictLRU (now : Time) (order : list (string * entry)) (c : Cache)
  : Cache :=
  with_store c (delete (evictLRU_scan now order).2 (store c)).

(** [Set].  [now_evict] is the clock read by [evictLRU] (only read at
    capacity), [now] the one read for the new entry, [order] the order of
    [evictLRU]'s loop. *)
Definition Set_ (key : string) (value : any) (now_evict now : Time)
    (order : list (string * entry)) (c : Cache) : Cache :=
  let c1 := if len (store c) =? size c then evictLRU now_evict order c else c in
  let newEntry := {| value := value; time := now |} in
  with_store c1 (<[key := newEntry]> (store c1)).

(** The loop of [Keys]: the slice [keys] and the index [i] after it;
    [None] when [keys[i] = k] is out of range, where Go panics. *)
Definition Keys_loop (keys : list string) (order : list (string * entry))
  : option (list string * nat) :=
  foldl (fun acc kv =>
           match acc with
           | Some (keys, i) =>
               if decide (i < length keys)%nat
               then Some (<[i := kv.1]> keys, S i)
               else None
           | None => None
           end)
        (Some (keys, 0%nat)) order.

(** [Keys]: the slice made by [make([]string, len(c.store))], filled by the
    loop run in [order]; and the cache after the call. *)
Definition Keys (order : list (string * entry)) (c : Cache)
  : option (list string) * Cache :=
  (fst <$> Keys_loop (replicate (Z.to_nat (len (store c))) "") order, c).

(** [evictExpired]: the loop deletes the key it stands on, so it visits
    every pair of [order] once. *)
Definition evictExpired (now : Time) (order : list (string * entry)) (c : Cache)
  : Cache :=
  with_store c
    (foldl (fun m kv => if ttl c <? Sub now (time kv.2) then delete kv.1 m else m)
           (store c) order).

(** ** The cache with its sweeper *)

Record System := mkSystem {
  cache : Cache;
  ctx_done : bool;
  enforcer : goroutine
}.

Definition start (size : Z) (ttl : Duration) : option System :=
  match New size ttl with
  | ((Some c, _), [g]) => Some {| cache := c; ctx_done := false; enforcer := g |}
  | _ => None
  end.

Inductive event :=
| EvSet (key : string) (value : any) (now_evict now : Time)
        (order : list (string * entry))
| EvGet (key : string)
| EvClose
| EvEnforcerRun (now : Time)
| EvTimerFire (now : Time)
| EvSelectTimer (now : Time) (order : list (string * entry))
| EvSelectDone.

(** One step of the system; [None] when the event cannot happen in the
    state.
    - [EvEnforcerRun]: the goroutine is scheduled and runs
      [timer := time.NewTimer(c.ttl)], then blocks in [select].
    - [EvTimerFire]: the runtime sends on [timer.C].
    - [EvSelectTimer]: [case <-timer.C: c.evictExpired()].
    - [EvSelectDone]: [case <-ctx.Done(): return]. *)
Definition step (nil : any) (ev : event) (s : System) : option System :=
  match ev with
  | EvSet key value now_evict now order =>
      Some {| cache := Set_ key value now_evict now order (cache s);
              ctx_done := ctx_done s; enforcer := enforcer s |}
  | EvGet key =>
      Some {| cache := (Get nil key (cache s)).2;
              ctx_done := ctx_done s; enforcer := enforcer s |}
  | EvClose =>
      Some {| cache := cache s; ctx_done := true; enforcer := enforcer s |}
  | EvEnforcerRun now =>
      match enforcer s with
      | EnforcerSpawned =>
          Some {| cache := cache s; ctx_done := ctx_done s;
                  enforcer := EnforcerSelect (TimerPending (now + ttl (cache s))) |}
      | _ => None
      end
  | EvTimerFire now =>
      match enforcer s with
      | EnforcerSelect (TimerPending when) =>
          if when <=? now then
            Some {| cache := cache s; ctx_done := ctx_done s;
                    enforcer := EnforcerSelect TimerReady |}
          else None
      | _ => None
      end
  | EvSelectTimer now order =>
      match enforcer s with
      | EnforcerSelect TimerReady =>
          Some {| cache := evictExpired now order (cache s);
                  ctx_done := ctx_done s;
                  enforcer := EnforcerSelect TimerDrained |}
      | _ => None
      end
  | EvSelectDone =>
      match enforcer s with
      | EnforcerSelect t =>
          if ctx_done s then
            Some {| cache := cache s; ctx_done := true;
                    enforcer := EnforcerReturned |}
          else None
      | _ => None
      end
  end.

Fixpoint run (nil : any) (evs : list event) (s : System) : option System :=
  match evs with
  | [] => Some s
  | ev :: evs' =>
      match step nil ev s with
      | Some s' => run nil evs' s'
      | None => None
      end
  end.

Definition is_sweep (ev : event) : bool :=
  match ev with EvSelectTimer _ _ => true | _ => false end.

Fixpoint sweeps (evs : list event) : nat :=
  match evs with
  | [] => 0%nat
  | ev :: evs' => ((if is_sweep ev then 1 else 0) + sweeps evs')%nat
  end.

(** The key written by an event that is a call of [Set]. *)
Definition set_key (ev : event) : option string :=
  match ev with
  | EvSet key _ _ _ _ => Some key
  | _ => None
  end.

(** [Close] is not called in [evs]. *)
Definition is_close (ev : event) : bool :=
  match ev with EvClose => true | _ => false end.

Definition never_closed (evs : list event) : bool :=
  forallb (fun ev => negb (is_close ev)) evs.

(** ** Runs on a clock that never repeats a reading *)

(** The clock readings of [ev] come after [last], the latest reading made
    before it, the reading of [evictLRU] strictly, and its loop runs over
    the table. *)
Definition strict_event (last : Time) (ev : event) (s : System) : Prop :=
  match ev with
  | EvSet _ _ now_evict now order =>
      last < now_evict /\ now_evict <= now /\
      order ≡ₚ map_to_list (store (cache s))
  | EvSelectTimer now order =>
      last <= now /\ order ≡ₚ map_to_list (store (cache s))
  | _ => True
  end.

(** The latest clock reading after [ev]. *)
Definition latest (last : Time) (ev : event) : Time :=
  match ev with
  | EvSet _ _ _ now _ => now
  | EvSelectTimer now _ => now
  | _ => last
  end.

Fixpoint strict_run (nil : any) (last : Time) (evs : list event) (s : System)
  : Prop :=
  match evs with
  | [] => True
  | ev :: evs' =>
      strict_event last ev s /\
      match step nil ev s with
      | Some s' => strict_run nil (latest last ev) evs' s'
      | None => True
      end
  end.

End Model.

(** The values stored by the concrete runs below. *)
Inductive dyn := dnil | dint (n : Z) | dstring (s : string).

Arguments entry : clear implicits.
Arguments Cache : clear implicits.
Arguments System : clear implicits.
Arguments event : clear implicits.

(** ** Concrete runs *)

(** [New(1, 1000)], then [Set("a", 1)] and [Set("b", 2)] while the clock
    reads 5 throughout, then [Set("c", 3)] with the clock at 6 and 7. *)
Definition cache_1 : Cache dyn := {| store := ∅; size := 1; ttl := 1000 |}.
Definition tie_a : Cache dyn :=
  Set_ "a" (dint 1) 5 5 (map_to_list (store cache_1)) cache_1.
Definition tie_b : Cache dyn :=
  Set_ "b" (dint 2) 5 5 (map_to_list (store tie_a)) tie_a.
Definition tie_c : Cache dyn :=
  Set_ "c" (dint 3) 6 7 (map_to_list (store tie_b)) tie_b.

(** [New(2, 1000)], then [Set("a", 1)], [Set("b", 2)] and [Set("c", 3)]
    while the clock reads 5 throughout. *)
Definition cache_2 : Cache dyn := {| store := ∅; size := 2; ttl := 1000 |}.
Definition full_a : Cache dyn :=
  Set_ "a" (dint 1) 5 5 (map_to_list (store cache_2)) cache_2.
Definition full_b : Cache dyn :=
  Set_ "b" (dint 2) 5 5 (map_to_list (store full_a)) full_a.
Definition full_c (order : list (string * entry dyn)) : Cache dyn :=
  Set_ "c" (dint 3) 5 5 order full_b.

(** [New(2, 1000)], then [Set("a", 1)] at 1, [Set("b", 2)] at 2 and
    [Set("b", 3)] with the clock at 3 and 4: every reading is new. *)
Definition over_a : Cache dyn :=
  Set_ "a" (dint 1) 1 1 (map_to_list (store cache_2)) cache_2.
Definition over_b : Cache dyn :=
  Set_ "b" (dint 2) 2 2 (map_to_list (store over_a)) over_a.
Definition over_b' (order : list (string * entry dyn)) : Cache dyn :=
  Set_ "b" (dint 3) 3 4 order over_b.

(** [New(1, 1000)], then [Set("a", 1)] with the clock at 1 and [Set("b", 2)]
    with the clock at 2 and 3. *)
Definition tick_a : Cache dyn :=
  Set_ "a" (dint 1) 1 1 (map_to_list (store cache_1)) cache_1.
Definition tick_sys (c : Cache dyn) : System dyn :=
  {| cache := c; ctx_done := false; enforcer := EnforcerSpawned |}.
Definition tick_run : list (event dyn) :=
  [EvSet "a" (dint 1) 1 1 (map_to_list (store cache_1));
   EvSet "b" (dint 2) 2 3 (map_to_list (store tick_a))].

(** A cache of ttl 100 with ["a"] written at 10 and ["b"] at 60. *)
Definition sweep_cache : Cache dyn :=
  {| store := <["b" := mkEntry (dint 2) 60]> {["a" := mkEntry (dint 1) 10]};
     size := 2; ttl := 100 |}.

(** [New(2, 100)]; the sweeper starts at 0, its timer fires at 100 and it
    sweeps; then [Set("a", 1)] at 150. *)
Definition sys_0 : System dyn :=
  {| cache := {| store := ∅; size := 2; ttl := 100 |};
     ctx_done := false; enforcer := EnforcerSpawned |}.
Definition one_sweep : list (event dyn) :=
  [EvEnforcerRun 0; EvTimerFire 100; EvSelectTimer 100 [];
   EvSet "a" (dint 1) 150 150 []].
Definition sys_1 : System dyn :=
  {| cache := {| store := {["a" := mkEntry (dint 1) 150]}; size := 2; ttl := 100 |};
     ctx_done := false; enforcer := EnforcerSelect TimerDrained |}.

(** The sweeper of [sys_1] after [Close] and its return. *)
Definition sys_closed : System dyn :=
  {| cache := cache sys_1; ctx_done := true; enforcer := EnforcerReturned |}.

(** [Set("a", 1)] and [Set("b", 2)] on the empty cache of capacity 2, and
    [Set("c", 3)] on the table [tie_b], which is above its capacity. *)
Definition fill_run : list (event dyn) :=
  [EvSet "a" (dint 1) 1 1 (map_to_list (store cache_2));
   EvSet "b" (dint 2) 2 2 (map_to_list (store over_a))].
Definition over_run : list (event dyn) :=
  [EvSet "c" (dint 3) 6 7 (map_to_list (store tie_b))].

(** ** Clock arithmetic *)

Lemma wrap64_id z : int64 z -> wrap64 z = z.
Proof.
  unfold int64, wrap64, minDuration, maxDuration. intros Hz.
  rewrite Z.mod_small; lia.
Qed.

Lemma Sub_exact t u : reading t -> reading u -> Sub t u = t - u.
Proof.
  unfold reading, Sub, maxDuration. intros Ht Hu.
  rewrite wrap64_id by (unfold int64, minDuration, maxDuration; lia).
  destruct (Z.ltb_spec (t - u) 0), (Z.ltb_spec u t),
    (Z.ltb_spec 0 (t - u)), (Z.ltb_spec t u); simpl; lia.
Qed.

Lemma Before_lt t u : Before t u = true <-> t < u.
Proof. unfold Before. apply Z.ltb_lt. Qed.

Section Proofs.
Context {any : Type} (nil : any).
Implicit Types (c : Cache any) (m : gmap string (entry any))
  (order : list (string * entry any)) (k key : string) (e : entry any).

(** ** Loops over the map *)

Lemma range_elem order m k e :
  order ≡ₚ map_to_list m -> (k, e) ∈ order <-> m !! k = Some e.
Proof. intros Hp. rewrite Hp. apply elem_of_map_to_list. Qed.

(** What the scan of [evictLRU] returns, from any starting pair. *)
Lemma scan_fold order (acc : Time * string) :
  let r := foldl (fun (a : Time * string) (kv : string * entry any) =>
                    if Before (time kv.2) a.1 then (time kv.2, kv.1) else a)
                 acc order in
  (forall kv, kv ∈ order -> r.1 <= time kv.2) /\
  ((r = acc /\ forall kv, kv ∈ order -> acc.1 <= time kv.2) \/
   (exists e, (r.2, e) ∈ order /\ time e = r.1 /\ r.1 < acc.1)).
Proof.
  revert acc. induction order as [|kv order IH]; intros acc; simpl.
  - split; [intros kv Hin; inversion Hin|].
    left. split; [done|]. intros kv Hin. inversion Hin.
  - destruct (Before (time kv.2) acc.1) eqn:Hb.
    + apply Before_lt in Hb.
      destruct (IH (time kv.2, kv.1)) as [Hmin Hcase]. simpl in *.
      destruct Hcase as [[Heq Hall]|(e & Hin & Ht & Hlt)].
      * rewrite Heq in *. simpl in *. split.
        -- intros kv' [->|Hin]%elem_of_cons; [lia|by apply Hall].
        -- right. exists kv.2. split; [|lia].
           apply elem_of_cons. left. by destruct kv.
      * split.
        -- intros kv' [->|Hin']%elem_of_cons; [lia|by apply Hmin].
        -- right. exists e. split; [by apply elem_of_cons; right|lia].
    + assert (acc.1 <= time kv.2) as Hge.
      { unfold Before in Hb. apply Z.ltb_ge in Hb. done. }
      destruct (IH acc) as [Hmin Hcase]. simpl in *.
      destruct Hcase as [[Heq Hall]|(e & Hin & Ht & Hlt)].
      * rewrite Heq in *. split.
        -- intros kv' [->|Hin]%elem_of_cons; [lia|by apply Hall].
        -- left. split; [done|].
           intros kv' [->|Hin]%elem_of_cons; [lia|by apply Hall].
      * split.
        -- intros kv' [->|Hin']%elem_of_cons; [lia|by apply Hmin].
        -- right. exists e. split; [by apply elem_of_cons; right|lia].
Qed.

(** The loop of [evictExpired] only deletes. *)
Lemma sweep_fold_None (ttl0 : Duration) (now : Time) order m k :
  m !! k = None ->
  foldl (fun m (kv : string * entry any) =>
           if ttl0 <? Sub now (time kv.2) then delete kv.1 m else m)
        m order !! k = None.
Proof.
  revert m. induction order as [|kv order IH]; intros m Hm; simpl; [done|].
  apply IH. destruct (ttl0 <? Sub now (time kv.2)); [|done].
  rewrite lookup_delete_None. by right.
Qed.

(** It deletes a key that it meets with an entry older than the ttl. *)
Lemma sweep_fold_expired (ttl0 : Duration) (now : Time) order m k e :
  (k, e) ∈ order -> ttl0 < Sub now (time e) ->
  foldl (fun m (kv : string * entry any) =>
           if ttl0 <? Sub now (time kv.2) then delete kv.1 m else m)
        m order !! k = None.
Proof.
  revert m. induction order as [|kv order IH]; intros m Hin Hexp; simpl.
  - inversion Hin.
  - apply elem_of_cons in Hin as [<-|Hin]; [|by apply IH].
    simpl. apply Z.ltb_lt in Hexp. rewrite Hexp.
    apply sweep_fold_None, lookup_delete_eq.
Qed.

(** It keeps a key that it only meets with entries within the ttl. *)
Lemma sweep_fold_live (ttl0 : Duration) (now : Time) order m k :
  (forall e, (k, e) ∈ order -> Sub now (time e) <= ttl0) ->
  foldl (fun m (kv : string * entry any) =>
           if ttl0 <? Sub now (time kv.2) then delete kv.1 m else m)
        m order !! k = m !! k.
Proof.
  revert m. induction order as [|kv order IH]; intros m Hlive; simpl; [done|].
  rewrite IH.
  - destruct (Z.ltb_spec ttl0 (Sub now (time kv.2))) as [Hexp|]; [|done].
    apply lookup_delete_ne. intros Heq.
    destruct kv as [k' e']. simpl in *. subst k'.
    specialize (Hlive e').
    assert (Sub now (time e') <= ttl0); [|lia].
    apply Hlive, elem_of_cons. by left.
  - intros e He. apply Hlive, elem_of_cons. by right.
Qed.

Lemma evictExpired_lookup now order c k :
  order ≡ₚ map_to_list (store c) ->
  store (evictExpired now order c) !! k =
    match store c !! k with
    | Some e => if ttl c <? Sub now (time e) then None else Some e
    | None => None
    end.
Proof.
  intros Hp. unfold evictExpired. simpl.
  destruct (store c !! k) as [e|] eqn:Hk.
  - destruct (Z.ltb_spec (ttl c) (Sub now (time e))) as [Hexp|Hlive].
    + apply sweep_fold_expired with e; [|done]. by apply (range_elem _ (store c)).
    + rewrite sweep_fold_live; [done|].
      intros e' He'. apply (range_elem _ (store c)) in He'; [|done].
      by replace e' with e by congruence.
  - by apply sweep_fold_None.
Qed.

(** ** Get *)

Lemma Gets_state keys c : (Gets nil keys c).2 = c.
Proof.
  revert c. induction keys as [|key keys IH]; intros c; simpl; [done|].
  rewrite IH. unfold Get. by destruct (store c !! key).
Qed.

(** C6: [Get] has no side effect on the cache: the cache after the call
    is the cache before it, so is it after any run of [Get] calls; every
    key keeps its entry, value and timestamp, and [evictLRU] run afterwards
    picks the key it would have picked before the reads. *)
Theorem Get_no_side_effect key keys c :
  (Get nil key c).2 = c /\
  (Gets nil keys c).2 = c /\
  (forall k, store (Gets nil keys c).2 !! k = store c !! k) /\
  (forall now order,
     evictLRU now order (Gets nil keys c).2 = evictLRU now order c).
Proof.
  split; [|split; [|split]].
  - unfold Get. by destruct (store c !! key).
  - apply Gets_state.
  - intros k. by rewrite Gets_state.
  - intros now order. by rewrite Gets_state.
Qed.

(** ** New *)

(** C7: [New] returns an error exactly when [size <= 0] or [ttl <= 0];
    with the error it returns no cache and starts no goroutine; otherwise it
    returns, without error, a cache with an empty table and the given size
    and ttl, and starts the sweeper. *)
Theorem New_error_iff (size0 : Z) (ttl0 : Duration) :
  let r := New (any := any) size0 ttl0 in
  (is_Some r.1.2 <-> size0 <= 0 \/ ttl0 <= 0) /\
  (is_Some r.1.2 /\ r.1.1 = None /\ r.2 = [] \/
   r = ((Some {| store := ∅; size := size0; ttl := ttl0 |}, None),
        [EnforcerSpawned])).
Proof.
  unfold New.
  destruct (Z.leb_spec size0 0) as [Hs|Hs]; simpl.
  - split; [|left; eauto]. split; [lia|eauto].
  - destruct (Z.leb_spec ttl0 0) as [Ht|Ht]; simpl.
    + split; [|left; eauto]. split; [lia|eauto].
    + split; [|by right]. split; [|lia]. by intros [x Hx].
Qed.

(** ** Set, then Get *)

Lemma Set_lookup_key key (v : any) now_evict now order c :
  store (Set_ key v now_evict now order c) !! key =
    Some {| value := v; time := now |}.
Proof. unfold Set_. simpl. apply lookup_insert_eq. Qed.

(** C8: right after [Set(k, v)], [Get(k)] returns [(v, true)]; and in any
    cache [Get(k)] returns [(nil, false)] exactly when [k] is not in the
    table. *)
Theorem Set_then_Get key (v : any) now_evict now order c :
  (Get nil key (Set_ key v now_evict now order c)).1 = (v, true) /\
  ((Get nil key c).1 = (nil, false) <-> store c !! key = None).
Proof.
  split.
  - unfold Get. by rewrite Set_lookup_key.
  - unfold Get. destruct (store c !! key); simpl; split; intros H; congruence.
Qed.

(** ** The sweep *)

(** C5: a sweep run at [now] removes every entry whose age
    [now.Sub(entry.time)] exceeds the ttl and keeps, unchanged, every entry
    whose age does not; on clock readings the age is the difference
    [now - entry.time]. *)
Theorem evictExpired_removes_exactly_expired now order c k e :
  order ≡ₚ map_to_list (store c) ->
  store c !! k = Some e ->
  (ttl c < Sub now (time e) ->
     store (evictExpired now order c) !! k = None) /\
  (Sub now (time e) <= ttl c ->
     store (evictExpired now order c) !! k = Some e) /\
  (reading now -> reading (time e) -> Sub now (time e) = now - time e).
Proof.
  intros Hp Hk. rewrite (evictExpired_lookup _ _ _ _ Hp), Hk.
  split; [|split].
  - intros Hexp. apply Z.ltb_lt in Hexp. by rewrite Hexp.
  - intros Hlive. apply Z.ltb_ge in Hlive. by rewrite Hlive.
  - apply Sub_exact.
Qed.

(** C9: a sweep keeps an entry whose age is exactly the ttl: the test is
    [now.Sub(v.time) > c.ttl], strict. *)
Theorem evictExpired_keeps_boundary now order c k e :
  order ≡ₚ map_to_list (store c) ->
  store c !! k = Some e ->
  Sub now (time e) = ttl c ->
  store (evictExpired now order c) !! k = Some e /\
  (Get nil k (evictExpired now order c)).1 = (value e, true).
Proof.
  intros Hp Hk Hage.
  assert (store (evictExpired now order c) !! k = Some e) as Hkeep.
  { rewrite (evictExpired_lookup _ _ _ _ Hp), Hk.
    rewrite (proj2 (Z.ltb_ge _ _)); [done|lia]. }
  split; [done|]. unfold Get. by rewrite Hkeep.
Qed.

(** ** The frame of Set *)

(** C10: [Set(k, v)] below capacity changes the entry of no key but [k];
    at capacity it removes at most one more key, the one picked by
    [evictLRU], and every other key keeps its entry. *)
Theorem Set_frame key (v : any) now_evict now order c :
  exists victim : option string,
    (len (store c) < size c -> victim = None) /\
    (len (store c) = size c ->
       victim = Some (evictLRU_scan now_evict order).2) /\
    (forall k, k ≠ key -> Some k ≠ victim ->
       store (Set_ key v now_evict now order c) !! k = store c !! k) /\
    (forall k, k ≠ key -> Some k = victim ->
       store (Set_ key v now_evict now order c) !! k = None).
Proof.
  unfold Set_.
  destruct (Z.eqb_spec (len (store c)) (size c)) as [Hfull|Hroom]; simpl.
  - exists (Some (evictLRU_scan now_evict order).2).
    split; [lia|]. split; [done|]. split.
    + intros k Hk Hv. rewrite lookup_insert_ne by done.
      apply lookup_delete_ne. congruence.
    + intros k Hk [= ->]. rewrite lookup_insert_ne by done.
      apply lookup_delete_eq.
  - exists None. split; [done|]. split; [lia|]. split.
    + intros k Hk _. by rewrite lookup_insert_ne.
    + intros k _ [=].
Qed.

(** ** Eviction at capacity *)

(** When some entry is strictly older than the clock read by [evictLRU],
    the scan ends on a key of the table with the least timestamp. *)
Lemma evictLRU_scan_oldest now order m :
  order ≡ₚ map_to_list m ->
  (exists k e, m !! k = Some e /\ time e < now) ->
  exists e, m !! (evictLRU_scan now order).2 = Some e /\
    forall k' e', m !! k' = Some e' -> time e <= time e'.
Proof.
  intros Hp (k0 & e0 & Hk0 & Hold). unfold evictLRU_scan.
  destruct (scan_fold order (now, "")) as [Hmin Hcase]. simpl in *.
  destruct Hcase as [[_ Hall]|(e & Hin & Ht & _)].
  - specialize (Hall (k0, e0)). simpl in Hall.
    assert (now <= time e0); [|lia]. by apply Hall, (range_elem _ m).
  - exists e. split; [by apply (range_elem order)|].
    intros k' e' Hk'. rewrite Ht.
    apply (Hmin (k', e')). by apply (range_elem _ m).
Qed.

(** When no entry is strictly older than that clock, the scan ends where
    it started, on the empty key. *)
Lemma evictLRU_scan_tie now order m :
  order ≡ₚ map_to_list m ->
  (forall k e, m !! k = Some e -> now <= time e) ->
  evictLRU_scan now order = (now, "").
Proof.
  intros Hp Hall. unfold evictLRU_scan.
  destruct (scan_fold order (now, "")) as [_ Hcase]. simpl in *.
  destruct Hcase as [[Heq _]|(e & Hin & Ht & Hlt)]; [done|].
  apply (range_elem _ m) in Hin; [|done].
  apply Hall in Hin. lia.
Qed.

Lemma len_insert_le k e m : len (<[k := e]> m) <= len m + 1.
Proof.
  unfold len. rewrite map_size_insert. destruct (m !! k); simpl; lia.
Qed.

Lemma len_delete_Some k e m : m !! k = Some e -> len (delete k m) = len m - 1.
Proof.
  intros Hk. unfold len. rewrite map_size_delete, Hk.
  assert (base.size m ≠ 0%nat) by (apply (map_size_ne_0_lookup_2 m k); eauto).
  simpl. lia.
Qed.

(** [Set] keeps the table within its capacity whenever, at capacity, the
    clock read by [evictLRU] is strictly later than some timestamp of the
    table. *)
Lemma Set_len_older_entry key (v : any) now_evict now order c :
  order ≡ₚ map_to_list (store c) ->
  len (store c) <= size c ->
  (len (store c) = size c ->
     exists k e, store c !! k = Some e /\ time e < now_evict) ->
  len (store (Set_ key v now_evict now order c)) <= size c.
Proof.
  intros Hp Hle Hold. unfold Set_.
  destruct (Z.eqb_spec (len (store c)) (size c)) as [Hfull|Hroom]; simpl.
  - destruct (evictLRU_scan_oldest now_evict order (store c) Hp (Hold Hfull))
      as (e & He & _).
    pose proof (len_delete_Some _ _ _ He).
    pose proof (len_insert_le key {| value := v; time := now |}
                  (delete (evictLRU_scan now_evict order).2 (store c))).
    lia.
  - pose proof (len_insert_le key {| value := v; time := now |} (store c)).
    lia.
Qed.

(** In that case [Set] of a new key at capacity removes one entry, one of
    least timestamp, and keeps every other. *)
Lemma Set_evicts_oldest key (v : any) now_evict now order c :
  order ≡ₚ map_to_list (store c) ->
  len (store c) = size c ->
  store c !! key = None ->
  (exists k e, store c !! k = Some e /\ time e < now_evict) ->
  exists victim e,
    store c !! victim = Some e /\
    (forall k' e', store c !! k' = Some e' -> time e <= time e') /\
    store (Set_ key v now_evict now order c) !! victim = None /\
    (forall k', k' ≠ victim -> k' ≠ key ->
       store (Set_ key v now_evict now order c) !! k' = store c !! k') /\
    len (store (Set_ key v now_evict now order c)) = size c.
Proof.
  intros Hp Hfull Hnew Hold.
  destruct (evictLRU_scan_oldest now_evict order (store c) Hp Hold)
    as (e & He & Hmin).
  exists (evictLRU_scan now_evict order).2, e.
  assert ((evictLRU_scan now_evict order).2 ≠ key) as Hne by congruence.
  unfold Set_. apply Z.eqb_eq in Hfull as Hfull'. rewrite Hfull'. simpl.
  split; [done|]. split; [done|]. split; [|split].
  - rewrite lookup_insert_ne by done. apply lookup_delete_eq.
  - intros k' Hk1 Hk2. rewrite lookup_insert_ne by done.
    by apply lookup_delete_ne.
  - unfold len in *. rewrite map_size_insert_None.
    + rewrite map_size_delete, He.
      assert (base.size (store c) ≠ 0%nat)
        by (apply (map_size_ne_0_lookup_2 _ (evictLRU_scan now_evict order).2);
            eauto).
      simpl. lia.
    + rewrite lookup_delete_ne by done. done.
Qed.

(** ** Overwriting *)

(** [Set] of a key that is in the table, on a table that is not at
    capacity, replaces that entry and nothing else. *)
Lemma Set_overwrite_not_full key (v : any) now_evict now order c :
  is_Some (store c !! key) ->
  len (store c) ≠ size c ->
  len (store (Set_ key v now_evict now order c)) = len (store c) /\
  forall k, k ≠ key ->
    store (Set_ key v now_evict now order c) !! k = store c !! k.
Proof.
  intros Hin Hroom. unfold Set_.
  apply Z.eqb_neq in Hroom. rewrite Hroom. simpl. split.
  - unfold len. by rewrite map_size_insert_Some.
  - intros k Hk. by rewrite lookup_insert_ne.
Qed.

(** ** The sweeper *)

Lemma step_sweeps_left ev (s s' : System any) :
  step nil ev s = Some s' ->
  ((if is_sweep ev then 1 else 0) + sweeps_left (enforcer s')
   <= sweeps_left (enforcer s))%nat.
Proof.
  destruct ev; simpl; intros Hstep.
  - injection Hstep as <-. simpl. lia.
  - injection Hstep as <-. simpl. lia.
  - injection Hstep as <-. simpl. lia.
  - destruct (enforcer s); [|done..]. injection Hstep as <-. simpl. lia.
  - destruct (enforcer s) as [|[when| |]|]; try done.
    destruct (when <=? now); [|done]. injection Hstep as <-. simpl. lia.
  - destruct (enforcer s) as [|[when| |]|]; try done.
    injection Hstep as <-. simpl. lia.
  - destruct (enforcer s) as [|t|]; try done.
    destruct (ctx_done s); [|done]. injection Hstep as <-. simpl. lia.
Qed.

Lemma run_sweeps_left evs (s s' : System any) :
  run nil evs s = Some s' ->
  (sweeps evs + sweeps_left (enforcer s') <= sweeps_left (enforcer s))%nat.
Proof.
  revert s. induction evs as [|ev evs IH]; intros s; simpl.
  - intros [= ->]. lia.
  - destruct (step nil ev s) as [s1|] eqn:Hstep; [|done].
    intros Hrun. apply IH in Hrun. apply step_sweeps_left in Hstep. lia.
Qed.

Lemma start_sweeps_left (size0 : Z) (ttl0 : Duration) (s0 : System any) :
  start size0 ttl0 = Some s0 -> sweeps_left (enforcer s0) = 1%nat.
Proof.
  unfold start, New.
  destruct (size0 <=? 0); [done|]. destruct (ttl0 <=? 0); [done|].
  by intros [= <-].
Qed.

(** C4 (the code does otherwise): in every run of a cache made by [New],
    closed or not, [ttlEnforcer] sweeps at most once; once it has swept,
    its timer is drained, neither the timer nor the sweep can happen again,
    and no continuation of the run sweeps. *)
Theorem ttlEnforcer_sweeps_once (size0 : Z) (ttl0 : Duration)
    (s0 s : System any) evs :
  start size0 ttl0 = Some s0 ->
  run nil evs s0 = Some s ->
  (sweeps evs <= 1)%nat /\
  (sweeps evs = 1%nat ->
     enforcer s = EnforcerSelect TimerDrained \/ enforcer s = EnforcerReturned) /\
  (sweeps evs = 1%nat ->
     (forall now, step nil (EvTimerFire now) s = None) /\
     (forall now order, step nil (EvSelectTimer now order) s = None) /\
     (forall evs' s', run nil evs' s = Some s' -> sweeps evs' = 0%nat)).
Proof.
  intros Hstart Hrun.
  apply start_sweeps_left in Hstart. apply run_sweeps_left in Hrun.
  split; [lia|].
  assert (sweeps evs = 1%nat ->
          enforcer s = EnforcerSelect TimerDrained \/
          enforcer s = EnforcerReturned) as Hend.
  { intros Hone. destruct (enforcer s) as [|[when| |]|]; simpl in *;
      try lia; auto. }
  split; [done|]. intros Hone. split; [|split].
  - intros now. simpl. by destruct (Hend Hone) as [-> | ->].
  - intros now order. simpl. by destruct (Hend Hone) as [-> | ->].
  - intros evs' s' Hrun'. apply run_sweeps_left in Hrun'. lia.
Qed.

(** ** Runs on a clock that never repeats a reading *)

Lemma sweep_fold_subseteq (ttl0 : Duration) (now : Time) order m :
  foldl (fun m (kv : string * entry any) =>
           if ttl0 <? Sub now (time kv.2) then delete kv.1 m else m)
        m order ⊆ m.
Proof.
  revert m. induction order as [|kv order IH]; intros m; simpl; [done|].
  etrans; [apply IH|].
  destruct (ttl0 <? Sub now (time kv.2)); [apply delete_subseteq|done].
Qed.

Lemma step_size ev (s s' : System any) :
  step nil ev s = Some s' -> size (cache s') = size (cache s).
Proof.
  destruct ev; simpl; intros Hstep.
  - injection Hstep as <-. simpl. unfold Set_.
    by destruct (len (store (cache s)) =? size (cache s)).
  - injection Hstep as <-. simpl. unfold Get.
    by destruct (store (cache s) !! key).
  - by injection Hstep as <-.
  - destruct (enforcer s); [|done..]. by injection Hstep as <-.
  - destruct (enforcer s) as [|[when| |]|]; try done.
    destruct (when <=? now); [|done]. by injection Hstep as <-.
  - destruct (enforcer s) as [|[when| |]|]; try done.
    by injection Hstep as <-.
  - destruct (enforcer s) as [|t|]; try done.
    destruct (ctx_done s); [|done]. by injection Hstep as <-.
Qed.

(** One step keeps the table within capacity and its timestamps no later
    than the latest clock reading. *)
Lemma step_strict_inv last ev (s s' : System any) :
  0 < size (cache s) ->
  len (store (cache s)) <= size (cache s) ->
  (forall k e, store (cache s) !! k = Some e -> time e <= last) ->
  strict_event last ev s ->
  step nil ev s = Some s' ->
  len (store (cache s')) <= size (cache s') /\
  (forall k e, store (cache s') !! k = Some e -> time e <= latest last ev).
Proof.
  intros Hpos Hle Hts Hev Hstep.
  pose proof (step_size _ _ _ Hstep) as Hsize. rewrite Hsize.
  destruct ev; simpl in *.
  - destruct Hev as (Hfresh & Hmono & Hp).
    injection Hstep as <-. simpl in *. split.
    + apply Set_len_older_entry; [done..|]. intros Hfull.
      assert (base.size (store (cache s)) ≠ 0%nat) as Hne
        by (unfold len in Hfull; lia).
      apply map_size_ne_0_lookup_1 in Hne as (k & e & Hk).
      exists k, e. split; [done|]. apply Hts in Hk. lia.
    + intros k e. unfold Set_. simpl.
      destruct (decide (k = key)) as [->|Hk].
      * rewrite lookup_insert_eq. intros [= <-]. simpl. lia.
      * rewrite lookup_insert_ne by done.
        destruct (len (store (cache s)) =? size (cache s)); simpl.
        -- intros He. apply lookup_delete_Some in He as [_ He].
           apply Hts in He. lia.
        -- intros He. apply Hts in He. lia.
  - injection Hstep as <-. simpl. unfold Get.
    destruct (store (cache s) !! key); simpl; eauto.
  - injection Hstep as <-. simpl. eauto.
  - destruct (enforcer s); [|done..]. injection Hstep as <-. simpl. eauto.
  - destruct (enforcer s) as [|[when| |]|]; try done.
    destruct (when <=? now); [|done]. injection Hstep as <-. simpl. eauto.
  - destruct Hev as (Hmono & Hp).
    destruct (enforcer s) as [|[when| |]|]; try done.
    injection Hstep as <-. simpl.
    pose proof (sweep_fold_subseteq (ttl (cache s)) now order
                  (store (cache s))) as Hsub.
    split.
    + apply map_subseteq_size in Hsub. unfold len in *. lia.
    + intros k e He. eapply lookup_weaken in He; [|exact Hsub].
      apply Hts in He. lia.
  - destruct (enforcer s) as [|t|]; try done.
    destruct (ctx_done s); [|done]. injection Hstep as <-. simpl. eauto.
Qed.

(** On such a clock every run of [Set], [Get], [Close] and sweeper events
    keeps the table within its capacity. *)
Lemma run_strict_capacity evs : forall last (s s' : System any),
  0 < size (cache s) ->
  len (store (cache s)) <= size (cache s) ->
  (forall k e, store (cache s) !! k = Some e -> time e <= last) ->
  strict_run nil last evs s ->
  run nil evs s = Some s' ->
  len (store (cache s')) <= size (cache s').
Proof.
  induction evs as [|ev evs IH]; intros last s s' Hpos Hle Hts Hstrict Hrun;
    simpl in *.
  - by injection Hrun as <-.
  - destruct Hstrict as [Hev Hrest].
    destruct (step nil ev s) as [s1|] eqn:Hstep; [|done].
    destruct (step_strict_inv last ev s s1) as [Hle1 Hts1]; [done..|].
    apply (IH (latest last ev) s1 s'); try done.
    by rewrite (step_size _ _ _ Hstep).
Qed.

End Proofs.

(** ** The code on concrete runs *)

(** C1 (the code does otherwise): with capacity 1, [Set("a", 1)] and
    [Set("b", 2)] made while the clock reads the same value leave two entries
    in the table: [evictLRU] starts from [time.Now()] and only takes an entry
    strictly before it, so it deletes the key [""], which is not there.  From
    then on [len(c.store) == c.size] is false and [Set] evicts nothing: a
    third key gives three entries, on a clock that has moved on. *)
Theorem Set_exceeds_capacity_on_clock_tie :
  New 1 1000 = ((Some cache_1, None), [EnforcerSpawned]) /\
  size tie_b = 1 /\
  len (store tie_a) = 1 /\
  len (store tie_b) = 2 /\
  len (store tie_c) = 3.
Proof. vm_compute. repeat split. Qed.

(** C2 (the code does otherwise): with capacity 2 and the keys ["a"] and
    ["b"] written while the clock reads 5, [Set("c", 3)] made while it still
    reads 5 removes no entry, in either order of the loop of [evictLRU]: all
    three keys are retrievable afterwards. *)
Theorem Set_new_key_evicts_nothing_on_clock_tie :
  size full_b = 2 /\ len (store full_b) = 2 /\ store full_b !! "c" = None /\
  forall order,
    order = map_to_list (store full_b) \/
    order = reverse (map_to_list (store full_b)) ->
    (Get dnil "a" (full_c order)).1 = (dint 1, true) /\
    (Get dnil "b" (full_c order)).1 = (dint 2, true) /\
    (Get dnil "c" (full_c order)).1 = (dint 3, true) /\
    len (store (full_c order)) = 3.
Proof.
  split; [|split; [|split]]; try (vm_compute; reflexivity).
  intros order [-> | ->]; vm_compute; repeat split.
Qed.

(** C3 (the code does otherwise): with capacity 2 and the keys ["a"] and
    ["b"] in the table, [Set("b", 3)] overwrites ["b"] and also evicts
    ["a"], in either order of the loop of [evictLRU]: the test of [Set] is
    [len(c.store) == c.size], whether or not the key is in the table.  The
    table goes from two entries to one. *)
Theorem Set_overwrite_at_capacity_evicts :
  size over_b = 2 /\ len (store over_b) = 2 /\
  (Get dnil "a" over_b).1 = (dint 1, true) /\
  (Get dnil "b" over_b).1 = (dint 2, true) /\
  forall order,
    order = map_to_list (store over_b) \/
    order = reverse (map_to_list (store over_b)) ->
    (Get dnil "b" (over_b' order)).1 = (dint 3, true) /\
    (Get dnil "a" (over_b' order)).1 = (dnil, false) /\
    len (store (over_b' order)) = 1.
Proof.
  split; [|split; [|split; [|split]]]; try (vm_compute; reflexivity).
  intros order [-> | ->]; vm_compute; repeat split.
Qed.

(** ** Instances *)

(** With capacity 1 and a clock that moves between the calls, the second
    [Set] evicts ["a"] and the table holds one entry. *)
Example run_strict_capacity_tick :
  exists s, run dnil tick_run (tick_sys cache_1) = Some s /\
    len (store (cache s)) <= size (cache s) /\
    (Get dnil "a" (cache s)).1 = (dnil, false) /\
    (Get dnil "b" (cache s)).1 = (dint 2, true).
Proof.
  eexists. split; [reflexivity|]. split.
  - apply (run_strict_capacity dnil tick_run 0 (tick_sys cache_1));
      [reflexivity | discriminate | intros k e [=] | | reflexivity].
    cbn [tick_run strict_run strict_event step].
    repeat split; try reflexivity; discriminate.
  - vm_compute. split; reflexivity.
Qed.

Lemma ttlEnforcer_sweeps_once_witness :
  (sweeps one_sweep <= 1)%nat /\
  (forall now, step dnil (EvTimerFire now) sys_1 = None) /\
  (forall now order, step dnil (EvSelectTimer now order) sys_1 = None).
Proof.
  destruct (ttlEnforcer_sweeps_once dnil 2 100 sys_0 sys_1 one_sweep)
    as (Hle & _ & Hstuck); [reflexivity | reflexivity |].
  destruct Hstuck as (Hfire & Hsweep & _); [reflexivity|].
  split; [exact Hle|]. split; [exact Hfire | exact Hsweep].
Defined.

Lemma evictExpired_removes_exactly_expired_witness :
  store (evictExpired 150 (map_to_list (store sweep_cache)) sweep_cache) !! "a"
    = None /\
  store (evictExpired 150 (map_to_list (store sweep_cache)) sweep_cache) !! "b"
    = Some (mkEntry (dint 2) 60).
Proof.
  split.
  - apply (evictExpired_removes_exactly_expired 150
             (map_to_list (store sweep_cache)) sweep_cache "a"
             (mkEntry (dint 1) 10)); [reflexivity | reflexivity |].
    vm_compute. reflexivity.
  - apply (evictExpired_removes_exactly_expired 150
             (map_to_list (store sweep_cache)) sweep_cache "b"
             (mkEntry (dint 2) 60)); [reflexivity | reflexivity |].
    vm_compute. discriminate.
Defined.

Lemma evictExpired_keeps_boundary_witness :
  store (evictExpired 110 (map_to_list (store sweep_cache)) sweep_cache) !! "a"
    = Some (mkEntry (dint 1) 10) /\
  (Get dnil "a"
     (evictExpired 110 (map_to_list (store sweep_cache)) sweep_cache)).1
    = (dint 1, true).
Proof.
  apply (evictExpired_keeps_boundary dnil 110
           (map_to_list (store sweep_cache)) sweep_cache "a"
           (mkEntry (dint 1) 10)); reflexivity.
Defined.

(** ** More on the methods *)

Section Methods.
Context {any : Type} (nil : any).
Implicit Types (c : Cache any) (m : gmap string (entry any))
  (order : list (string * entry any)) (k key : string) (e : entry any).

(** *** Keys *)

Lemma Keys_loop_fill order : forall (pre rest : list string),
  length rest = length order ->
  foldl (fun acc (kv : string * entry any) =>
           match acc with
           | Some (keys, i) =>
               if decide (i < length keys)%nat
               then Some (<[i := kv.1]> keys, S i)
               else None
           | None => None
           end)
        (Some (pre ++ rest, length pre)) order
  = Some (pre ++ order.*1, (length pre + length order)%nat).
Proof.
  induction order as [|kv order IH]; intros pre rest Hlen; simpl.
  - destruct rest; [|done]. by rewrite Nat.add_0_r.
  - destruct rest as [|r rest]; [done|]. simpl in Hlen.
    rewrite decide_True by (rewrite length_app; simpl; lia).
    rewrite insert_app_r_alt by lia. rewrite Nat.sub_diag. simpl.
    replace (pre ++ kv.1 :: rest) with ((pre ++ [kv.1]) ++ rest)
      by (by rewrite <- app_assoc).
    replace (S (length pre)) with (length (pre ++ [kv.1]))
      by (rewrite length_app; simpl; lia).
    rewrite IH by lia. rewrite <- app_assoc. simpl.
    f_equal. f_equal. rewrite length_app. simpl. lia.
Qed.

Lemma range_length order m :
  order ≡ₚ map_to_list m -> length order = Z.to_nat (len m).
Proof.
  intros Hp. rewrite Hp, length_map_to_list. unfold len. lia.
Qed.

Lemma Keys_result order c :
  order ≡ₚ map_to_list (store c) -> (Keys order c).1 = Some (order.*1).
Proof.
  intros Hp. pose proof (range_length _ _ Hp) as Hlen.
  unfold Keys, Keys_loop. simpl.
  pose proof (Keys_loop_fill order []
                (replicate (Z.to_nat (len (store c))) "")) as Hfill.
  simpl in Hfill. rewrite Hfill; [done|]. by rewrite length_replicate.
Qed.

(** X1: [Keys] does not panic and returns the keys of the table, each once,
    in the order of its loop, as many as [len(c.store)]; a key is in the
    slice exactly when [Get] finds it; the cache is left as it was. *)
Theorem Keys_lists_table order c :
  order ≡ₚ map_to_list (store c) ->
  (Keys order c).1 = Some (order.*1) /\
  (Keys order c).2 = c /\
  NoDup (order.*1) /\
  Z.of_nat (length (order.*1)) = len (store c) /\
  (forall k, k ∈ order.*1 <-> (Get nil k c).1.2 = true).
Proof.
  intros Hp. pose proof (range_length _ _ Hp) as Hlen.
  split; [|split; [done|split; [|split]]].
  - by apply Keys_result.
  - rewrite Hp. apply NoDup_fst_map_to_list.
  - rewrite length_fmap, Hlen. unfold len. lia.
  - intros k. rewrite Hp. unfold Get.
    rewrite list_elem_of_fmap. split.
    + intros ([k' e] & -> & Hin). apply elem_of_map_to_list in Hin.
      simpl. by rewrite Hin.
    + destruct (store c !! k) as [e|] eqn:Hk; simpl; [|done].
      intros _. exists (k, e). split; [done|]. by apply elem_of_map_to_list.
Qed.

(** *** The sweep *)

Lemma with_store_id c : with_store c (store c) = c.
Proof. by destruct c. Qed.

Lemma evictExpired_config now order c :
  size (evictExpired now order c) = size c /\
  ttl (evictExpired now order c) = ttl c.
Proof. done. Qed.

Lemma Cache_eq c c' :
  store c = store c' -> size c = size c' -> ttl c = ttl c' -> c = c'.
Proof. destruct c, c'. simpl. by intros -> -> ->. Qed.

(** X2: the cache after a sweep does not depend on the order in which the
    loop of [evictExpired] visits the table. *)
Theorem evictExpired_order_independent now order order' c :
  order ≡ₚ map_to_list (store c) ->
  order' ≡ₚ map_to_list (store c) ->
  evictExpired now order c = evictExpired now order' c.
Proof.
  intros Hp Hp'. apply Cache_eq; [|done..].
  apply map_eq. intros k.
  by rewrite (evictExpired_lookup now order c k Hp),
    (evictExpired_lookup now order' c k Hp').
Qed.

(** X3: a sweep never adds an entry and never alters one: what it leaves
    was in the table before, with the same value and timestamp, the table is
    no larger, and [size] and [ttl] are untouched; when no entry is older
    than the ttl the cache is left exactly as it was. *)
Theorem evictExpired_only_removes now order c :
  order ≡ₚ map_to_list (store c) ->
  (forall k e, store (evictExpired now order c) !! k = Some e ->
     store c !! k = Some e /\ Sub now (time e) <= ttl c) /\
  len (store (evictExpired now order c)) <= len (store c) /\
  size (evictExpired now order c) = size c /\
  ttl (evictExpired now order c) = ttl c /\
  ((forall k e, store c !! k = Some e -> Sub now (time e) <= ttl c) ->
   evictExpired now order c = c).
Proof.
  intros Hp. split; [|split; [|split; [done|split; [done|]]]].
  - intros k e. rewrite (evictExpired_lookup now order c k Hp).
    destruct (store c !! k) as [e'|]; [|done].
    destruct (Z.ltb_spec (ttl c) (Sub now (time e'))); [done|].
    by intros [= <-].
  - pose proof (sweep_fold_subseteq (ttl c) now order (store c)) as Hsub.
    apply map_subseteq_size in Hsub. unfold evictExpired, len. simpl. lia.
  - intros Hlive. apply Cache_eq; [|done..].
    apply map_eq. intros k. rewrite (evictExpired_lookup now order c k Hp).
    destruct (store c !! k) as [e|] eqn:Hk; [|done].
    apply Hlive in Hk. apply Z.ltb_ge in Hk. by rewrite Hk.
Qed.

(** X4: sweeping is idempotent: a second sweep at the same [now] removes
    nothing. *)
Theorem evictExpired_idempotent now order order' c :
  order ≡ₚ map_to_list (store c) ->
  order' ≡ₚ map_to_list (store (evictExpired now order c)) ->
  evictExpired now order' (evictExpired now order c) = evictExpired now order c.
Proof.
  intros Hp Hp'. apply Cache_eq; [|done..].
  apply map_eq. intros k.
  rewrite (evictExpired_lookup now order' _ k Hp').
  rewrite (evictExpired_lookup now order c k Hp).
  destruct (store c !! k) as [e|]; [|done]. simpl.
  destruct (ttl c <? Sub now (time e)) eqn:Hexp; [done|].
  by rewrite Hexp.
Qed.

Lemma Sub_mono_l t t' u :
  reading t -> reading t' -> reading u -> t <= t' -> Sub t u <= Sub t' u.
Proof. intros Ht Ht' Hu Hle. rewrite !Sub_exact by done. lia. Qed.

(** X5: on clock readings, a sweep at [now] followed by a sweep at a later
    [now'] leaves the same cache as the later sweep alone. *)
Theorem evictExpired_later_subsumes now now' order order' order'' c :
  order ≡ₚ map_to_list (store c) ->
  order' ≡ₚ map_to_list (store (evictExpired now order c)) ->
  order'' ≡ₚ map_to_list (store c) ->
  reading now -> reading now' -> now <= now' ->
  map_Forall (fun _ e => reading (time e)) (store c) ->
  evictExpired now' order' (evictExpired now order c)
  = evictExpired now' order'' c.
Proof.
  intros Hp Hp' Hp'' Hr Hr' Hle Hts. apply Cache_eq; [|done..].
  apply map_eq. intros k.
  rewrite (evictExpired_lookup now' order' _ k Hp').
  rewrite (evictExpired_lookup now order c k Hp).
  rewrite (evictExpired_lookup now' order'' c k Hp'').
  destruct (store c !! k) as [e|] eqn:Hk; [|done]. simpl.
  destruct (Z.ltb_spec (ttl c) (Sub now (time e))) as [Hexp|Hlive]; [|done].
  pose proof (Sub_mono_l now now' (time e) Hr Hr' (Hts k e Hk) Hle) as Hmono.
  rewrite (proj2 (Z.ltb_lt _ _)); [done|lia].
Qed.

Lemma Set_config key (v : any) now_evict now order c :
  size (Set_ key v now_evict now order c) = size c /\
  ttl (Set_ key v now_evict now order c) = ttl c.
Proof. unfold Set_. by destruct (len (store c) =? size c). Qed.

(** X6: an entry written by [Set] at [now] and swept at [now'] is still
    returned by [Get] when [now'.Sub(now)] is at most the ttl, and is gone
    when it is more. *)
Theorem Set_sweep_Get key (v : any) now_evict now now' order order' c :
  order' ≡ₚ map_to_list (store (Set_ key v now_evict now order c)) ->
  (Get nil key
     (evictExpired now' order' (Set_ key v now_evict now order c))).1
  = if ttl c <? Sub now' now then (nil, false) else (v, true).
Proof.
  intros Hp'. unfold Get.
  rewrite (evictExpired_lookup now' order' _ key Hp'), Set_lookup_key.
  rewrite (proj2 (Set_config key v now_evict now order c)). simpl.
  by destruct (ttl c <? Sub now' now).
Qed.

(** *** Eviction *)

(** X7: the scan of [evictLRU] ends on the first pair, in the order of the
    loop, whose timestamp is the least one, when that is before [now]: ties
    between oldest entries go to the one the loop meets first. *)
Theorem evictLRU_scan_first_oldest now (before after : list (string * entry any))
    k e :
  time e < now ->
  (forall kv, kv ∈ before -> time e < time kv.2) ->
  (forall kv, kv ∈ after -> time e <= time kv.2) ->
  evictLRU_scan now (before ++ (k, e) :: after) = (time e, k).
Proof.
  intros Hnow Hbefore Hafter. unfold evictLRU_scan.
  rewrite foldl_app. simpl.
  destruct (scan_fold before (now, "")) as [_ Hcase].
  set (r := foldl _ (now, "") before) in *. simpl in Hcase.
  assert (time e < r.1) as Hlt.
  { destruct Hcase as [[-> _]|(e0 & Hin & <- & _)]; [done|].
    by apply (Hbefore (r.2, e0)). }
  rewrite (proj2 (Before_lt _ _) Hlt).
  destruct (scan_fold after (time e, k)) as [_ Hcase'].
  simpl in Hcase'. destruct Hcase' as [[Heq _]|(e1 & Hin & Ht & Hlt')]; [done|].
  apply Hafter in Hin. simpl in Hin. lia.
Qed.

Lemma evictLRU_scan_unique now order m k e :
  order ≡ₚ map_to_list m ->
  m !! k = Some e ->
  time e < now ->
  (forall k' e', k' ≠ k -> m !! k' = Some e' -> time e < time e') ->
  (evictLRU_scan now order).2 = k.
Proof.
  intros Hp Hk Hnow Huniq.
  destruct (evictLRU_scan_oldest now order m Hp) as (e0 & He0 & Hmin);
    [by exists k, e|].
  destruct (decide ((evictLRU_scan now order).2 = k)) as [|Hne]; [done|].
  pose proof (Huniq _ _ Hne He0). pose proof (Hmin _ _ Hk). lia.
Qed.

(** X8: when one key is strictly older than every other and than [now],
    [evictLRU] deletes that key, in whatever order its loop runs. *)
Theorem evictLRU_unique_oldest now order c k e :
  order ≡ₚ map_to_list (store c) ->
  store c !! k = Some e ->
  time e < now ->
  (forall k' e', k' ≠ k -> store c !! k' = Some e' -> time e < time e') ->
  (evictLRU_scan now order).2 = k /\
  store (evictLRU now order c) = delete k (store c).
Proof.
  intros Hp Hk Hnow Huniq.
  assert ((evictLRU_scan now order).2 = k) as Hvictim
    by (by apply evictLRU_scan_unique with (store c) e).
  split; [done|]. unfold evictLRU. simpl. by rewrite Hvictim.
Qed.

(** X9: when no entry is strictly before the clock read by [evictLRU], it
    runs [delete(c.store, "")]: a table without the key [""] (the empty
    table too) is left as it was, and an entry under the key [""] is removed
    whatever its timestamp. *)
Theorem evictLRU_no_older_entry now order c :
  order ≡ₚ map_to_list (store c) ->
  (forall k e, store c !! k = Some e -> now <= time e) ->
  store (evictLRU now order c) = delete "" (store c) /\
  (store c !! "" = None -> evictLRU now order c = c) /\
  (is_Some (store c !! "") ->
   store (evictLRU now order c) !! "" = None /\
   len (store (evictLRU now order c)) = len (store c) - 1).
Proof.
  intros Hp Hall.
  assert (store (evictLRU now order c) = delete "" (store c)) as Hdel.
  { unfold evictLRU. simpl.
    by rewrite (evictLRU_scan_tie now order (store c) Hp Hall). }
  split; [done|]. split.
  - intros Hnone. apply Cache_eq; [|done..].
    rewrite Hdel. by apply delete_id.
  - intros [e He]. rewrite Hdel. split; [apply lookup_delete_eq|].
    by apply len_delete_Some with e.
Qed.

(** X10: reads do not protect an entry: when [k] is strictly the oldest
    entry of a full table, [Set] of another key evicts [k] however many
    times [Get] was called before, on [k] or on any key. *)
Theorem Get_does_not_refresh keys key (v : any) now_evict now order c k e :
  order ≡ₚ map_to_list (store c) ->
  len (store c) = size c ->
  store c !! k = Some e ->
  time e < now_evict ->
  (forall k' e', k' ≠ k -> store c !! k' = Some e' -> time e < time e') ->
  key ≠ k ->
  (Get nil k (Set_ key v now_evict now order (Gets nil keys c).2)).1
  = (nil, false).
Proof.
  intros Hp Hfull Hk Hnow Huniq Hkey. rewrite Gets_state.
  assert ((evictLRU_scan now_evict order).2 = k) as Hvictim
    by (by apply evictLRU_scan_unique with (store c) e).
  unfold Get, Set_. apply Z.eqb_eq in Hfull. rewrite Hfull. simpl.
  rewrite lookup_insert_ne by done. rewrite Hvictim.
  by rewrite lookup_delete_eq.
Qed.

(** X11: writes do refresh: after [Set(k, v)] at [now], an eviction that
    finds another entry older than [now] and than its own clock leaves [k]
    in place with the value and timestamp just written. *)
Theorem Set_refreshes_priority key (v : any) now_evict now order c
    now' order' k' e' :
  order' ≡ₚ map_to_list (store (Set_ key v now_evict now order c)) ->
  k' ≠ key ->
  store (Set_ key v now_evict now order c) !! k' = Some e' ->
  time e' < now -> time e' < now' ->
  store (evictLRU now' order' (Set_ key v now_evict now order c)) !! key
  = Some {| value := v; time := now |}.
Proof.
  intros Hp' Hne Hk' Holder Hnow'.
  destruct (evictLRU_scan_oldest now' order' _ Hp') as (e0 & He0 & Hmin);
    [by exists k', e'|].
  unfold evictLRU. simpl store at 1.
  rewrite lookup_delete_ne; [apply Set_lookup_key|].
  intros Heq. rewrite Heq, Set_lookup_key in He0.
  injection He0 as <-. apply Hmin in Hk'. simpl in Hk'. lia.
Qed.

(** *** Runs of the cache with its sweeper *)

Lemma Set_not_full key (v : any) now_evict now order c :
  len (store c) ≠ size c ->
  store (Set_ key v now_evict now order c)
  = <[key := {| value := v; time := now |}]> (store c).
Proof.
  intros Hne. unfold Set_. apply Z.eqb_neq in Hne. by rewrite Hne.
Qed.

Lemma len_insert_ge k e m : len m <= len (<[k := e]> m).
Proof.
  unfold len. rewrite map_size_insert. destruct (m !! k); simpl; lia.
Qed.

(** X12: a table that holds more entries than [size] is never brought back
    by [Set]: the test [len(c.store) == c.size] fails, so in a run without a
    sweep no key is ever removed and the table stays above capacity. *)
Theorem Set_above_capacity_never_evicts evs : forall (s s' : System any),
  run nil evs s = Some s' ->
  sweeps evs = 0%nat ->
  size (cache s) < len (store (cache s)) ->
  size (cache s') < len (store (cache s')) /\
  len (store (cache s)) <= len (store (cache s')) /\
  (forall k, is_Some (store (cache s) !! k) ->
             is_Some (store (cache s') !! k)).
Proof.
  induction evs as [|ev evs IH]; intros s s' Hrun Hsw Hover; simpl in *.
  - injection Hrun as <-. eauto with lia.
  - destruct (step nil ev s) as [s1|] eqn:Hstep; [|done].
    assert (sweeps evs = 0%nat) as Hsw' by lia.
    assert (size (cache s1) = size (cache s) /\
            len (store (cache s)) <= len (store (cache s1)) /\
            (forall k, is_Some (store (cache s) !! k) ->
                       is_Some (store (cache s1) !! k))) as (Hsz & Hlen & Hkeep).
    { destruct ev; simpl in Hstep, Hsw.
      - injection Hstep as <-. cbn [cache].
        split; [apply Set_config|]. rewrite Set_not_full by lia.
        split; [apply len_insert_ge|].
        intros k Hk. rewrite lookup_insert.
        by destruct (decide (key = k)).
      - injection Hstep as <-. simpl. unfold Get.
        by destruct (store (cache s) !! key).
      - by injection Hstep as <-.
      - destruct (enforcer s); [|done..]. by injection Hstep as <-.
      - destruct (enforcer s) as [|[when| |]|]; try done.
        destruct (when <=? now); [|done]. by injection Hstep as <-.
      - lia.
      - destruct (enforcer s) as [|t|]; try done.
        destruct (ctx_done s); [|done]. by injection Hstep as <-. }
    destruct (IH s1 s' Hrun Hsw') as (Hover' & Hlen' & Hkeep'); [lia|].
    split; [done|]. split; [lia|]. intros k Hk. by apply Hkeep', Hkeep.
Qed.

Lemma step_ttl ev (s s' : System any) :
  step nil ev s = Some s' -> ttl (cache s') = ttl (cache s).
Proof.
  destruct ev; simpl; intros Hstep.
  - injection Hstep as <-. cbn [cache]. apply Set_config.
  - injection Hstep as <-. simpl. unfold Get.
    by destruct (store (cache s) !! key).
  - by injection Hstep as <-.
  - destruct (enforcer s); [|done..]. by injection Hstep as <-.
  - destruct (enforcer s) as [|[when| |]|]; try done.
    destruct (when <=? now); [|done]. by injection Hstep as <-.
  - destruct (enforcer s) as [|[when| |]|]; try done.
    by injection Hstep as <-.
  - destruct (enforcer s) as [|t|]; try done.
    destruct (ctx_done s); [|done]. by injection Hstep as <-.
Qed.

(** X13: nothing changes the configuration: in every state reached from
    [New(size, ttl)] the cache has that [size] and that [ttl], both
    positive. *)
Theorem config_is_fixed (size0 : Z) (ttl0 : Duration) evs (s0 s : System any) :
  start size0 ttl0 = Some s0 ->
  run nil evs s0 = Some s ->
  size (cache s) = size0 /\ ttl (cache s) = ttl0 /\ 0 < size0 /\ 0 < ttl0.
Proof.
  intros Hstart Hrun.
  assert (size (cache s0) = size0 /\ ttl (cache s0) = ttl0 /\
          0 < size0 /\ 0 < ttl0) as (Hs & Ht & Hpos).
  { unfold start, New in Hstart.
    destruct (Z.leb_spec size0 0); [done|].
    destruct (Z.leb_spec ttl0 0); [done|].
    injection Hstart as <-. simpl. lia. }
  assert (size (cache s) = size (cache s0) /\ ttl (cache s) = ttl (cache s0))
    as [Hs' Ht'].
  { clear Hstart Hs Ht Hpos. revert s0 Hrun.
    induction evs as [|ev evs IH]; intros s0 Hrun; simpl in *.
    - by injection Hrun as <-.
    - destruct (step nil ev s0) as [s1|] eqn:Hstep; [|done].
      destruct (IH s1 Hrun) as [-> ->].
      split; [by eapply step_size|by eapply step_ttl]. }
  lia.
Qed.

(** X14: the sweeper goroutine returns only after [Close]: in a run from
    [New] in which [Close] is never called the context is never done and
    [ttlEnforcer] has not returned. *)
Theorem ttlEnforcer_runs_until_Close (size0 : Z) (ttl0 : Duration) evs
    (s0 s : System any) :
  start size0 ttl0 = Some s0 ->
  run nil evs s0 = Some s ->
  never_closed evs = true ->
  ctx_done s = false /\ enforcer s ≠ EnforcerReturned.
Proof.
  intros Hstart Hrun Hnc.
  assert (ctx_done s0 = false /\ enforcer s0 ≠ EnforcerReturned) as Hinv.
  { unfold start, New in Hstart.
    destruct (size0 <=? 0); [done|]. destruct (ttl0 <=? 0); [done|].
    by injection Hstart as <-. }
  clear Hstart. revert s0 Hrun Hnc Hinv.
  induction evs as [|ev evs IH]; intros s0 Hrun Hnc [Hd Hg]; simpl in *.
  - by injection Hrun as <-.
  - apply andb_true_iff in Hnc as [Hev Hnc].
    destruct (step nil ev s0) as [s1|] eqn:Hstep; [|done].
    apply (IH s1); [done..|].
    destruct ev; simpl in *; try done.
    + by injection Hstep as <-.
    + by injection Hstep as <-.
    + destruct (enforcer s0); [|done..]. by injection Hstep as <-.
    + destruct (enforcer s0) as [|[when| |]|]; try done.
      destruct (when <=? now); [|done]. by injection Hstep as <-.
    + destruct (enforcer s0) as [|[when| |]|]; try done.
      by injection Hstep as <-.
    + destruct (enforcer s0) as [|t|]; try done.
      by rewrite Hd in Hstep.
Qed.

(** X15: [Close] stops the sweeper for good: once [ttlEnforcer] has taken
    [<-ctx.Done()] and returned, it stays returned and no run sweeps
    again. *)
Theorem ttlEnforcer_returned_is_final evs : forall (s s' : System any),
  enforcer s = EnforcerReturned ->
  run nil evs s = Some s' ->
  enforcer s' = EnforcerReturned /\ sweeps evs = 0%nat.
Proof.
  induction evs as [|ev evs IH]; intros s s' Hret Hrun; simpl in *.
  - injection Hrun as <-. eauto.
  - destruct (step nil ev s) as [s1|] eqn:Hstep; [|done].
    assert (enforcer s1 = EnforcerReturned /\ is_sweep ev = false) as [Hret1 Hns].
    { destruct ev; simpl in *; rewrite ?Hret in Hstep; try done;
        by injection Hstep as <-. }
    destruct (IH s1 s' Hret1 Hrun) as (? & ?).
    rewrite Hns. eauto.
Qed.

(** X16: a cache takes new keys up to its capacity without evicting: a run
    of [Set] calls on distinct keys that are not in the table, no more than
    the room left, keeps every entry the table had, adds one entry per call
    and leaves each key set with its value, on any clock and in any loop
    order. *)
Theorem Set_fills_without_eviction evs : forall (s s' : System any),
  run nil evs s = Some s' ->
  Forall (fun ev => is_Some (set_key ev)) evs ->
  NoDup (omap set_key evs) ->
  (forall k, k ∈ omap set_key evs -> store (cache s) !! k = None) ->
  len (store (cache s)) + Z.of_nat (length evs) <= size (cache s) ->
  len (store (cache s')) = len (store (cache s)) + Z.of_nat (length evs) /\
  (forall k e, store (cache s) !! k = Some e ->
               store (cache s') !! k = Some e) /\
  (forall key v now_evict now order,
     EvSet key v now_evict now order ∈ evs ->
     (Get nil key (cache s')).1 = (v, true)).
Proof.
  induction evs as [|ev evs IH]; intros s s' Hrun Hsets Hnd Hnew Hroom.
  - simpl in *. injection Hrun as <-. split; [lia|]. split; [done|].
    intros ????? Hin. inversion Hin.
  - apply Forall_cons in Hsets as [[k0 Hk0] Hsets].
    destruct ev as [key v now_evict now order| | | | | |]; try done.
    simpl in Hk0. injection Hk0 as <-.
    simpl in Hrun, Hnd, Hnew.
    apply NoDup_cons in Hnd as [Hfresh Hnd].
    set (s1 := {| cache := Set_ key v now_evict now order (cache s);
                  ctx_done := ctx_done s; enforcer := enforcer s |}) in *.
    assert (len (store (cache s)) ≠ size (cache s)) as Hne
      by (simpl length in Hroom; lia).
    assert (store (cache s1)
            = <[key := {| value := v; time := now |}]> (store (cache s)))
      as Hstore by (by apply Set_not_full).
    assert (store (cache s) !! key = None) as Hkey
      by (apply Hnew, elem_of_cons; by left).
    assert (len (store (cache s1)) = len (store (cache s)) + 1) as Hlen1.
    { rewrite Hstore. unfold len. rewrite map_size_insert_None by done. lia. }
    assert (size (cache s1) = size (cache s)) as Hsize1 by apply Set_config.
    destruct (IH s1 s' Hrun Hsets Hnd) as (Hlen & Hkeep & Hget).
    + intros k Hk. rewrite Hstore, lookup_insert_ne.
      * apply Hnew, elem_of_cons. by right.
      * by intros ->.
    + rewrite Hlen1, Hsize1. simpl length in Hroom. lia.
    + split; [simpl length; lia|]. split.
      * intros k e Hk. apply Hkeep. rewrite Hstore, lookup_insert_ne; [done|].
        intros ->. congruence.
      * intros key' v' ne' n' o' Hin.
        apply elem_of_cons in Hin as [Heq|Hin]; [|by eapply Hget].
        injection Heq as -> -> _ _ _. unfold Get.
        rewrite (Hkeep key {| value := v; time := now |}); [done|].
        by rewrite Hstore, lookup_insert_eq.
Qed.

(** X17: right after [Set(k, v)], [Keys] lists [k], among at most one key
    more than the table had. *)
Theorem Set_then_Keys key (v : any) now_evict now order order' c :
  order' ≡ₚ map_to_list (store (Set_ key v now_evict now order c)) ->
  exists keys,
    (Keys order' (Set_ key v now_evict now order c)).1 = Some keys /\
    key ∈ keys /\
    Z.of_nat (length keys) <= len (store c) + 1.
Proof.
  intros Hp'. exists (order'.*1). split; [by apply Keys_result|]. split.
  - apply list_elem_of_fmap. exists (key, {| value := v; time := now |}).
    split; [done|]. rewrite Hp'. apply elem_of_map_to_list, Set_lookup_key.
  - rewrite length_fmap, (range_length _ _ Hp').
    assert (len (store (Set_ key v now_evict now order c)) <= len (store c) + 1);
      [|unfold len in *; lia].
    unfold Set_. destruct (len (store c) =? size c); simpl.
    + pose proof (len_insert_le key {| value := v; time := now |}
                    (delete (evictLRU_scan now_evict order).2 (store c))).
      pose proof (map_subseteq_size _ _
                    (delete_subseteq (store c) (evictLRU_scan now_evict order).2)).
      unfold len in *. lia.
    + apply len_insert_le.
Qed.

End Methods.

(** ** Instances of the properties of the methods *)

Ltac by_evaluation :=
  match goal with
  | |- ?P => apply (@bool_decide_unpack P _); vm_compute; exact I
  end.

Lemma Keys_lists_table_witness :
  (Keys (map_to_list (store sweep_cache)) sweep_cache).1
  = Some ((map_to_list (store sweep_cache)).*1).
Proof.
  apply (Keys_lists_table dnil (map_to_list (store sweep_cache)) sweep_cache).
  reflexivity.
Defined.

Lemma evictExpired_order_independent_witness :
  evictExpired 150 (map_to_list (store sweep_cache)) sweep_cache
  = evictExpired 150 (reverse (map_to_list (store sweep_cache))) sweep_cache.
Proof.
  apply evictExpired_order_independent;
    [reflexivity | apply reverse_Permutation].
Defined.

Lemma evictExpired_only_removes_witness :
  len (store (evictExpired 150 (map_to_list (store sweep_cache)) sweep_cache))
  <= len (store sweep_cache).
Proof.
  apply (evictExpired_only_removes 150 (map_to_list (store sweep_cache))
           sweep_cache).
  reflexivity.
Defined.

Lemma evictExpired_idempotent_witness :
  evictExpired 150
    (map_to_list
       (store (evictExpired 150 (map_to_list (store sweep_cache)) sweep_cache)))
    (evictExpired 150 (map_to_list (store sweep_cache)) sweep_cache)
  = evictExpired 150 (map_to_list (store sweep_cache)) sweep_cache.
Proof. apply evictExpired_idempotent; reflexivity. Defined.

Lemma evictExpired_later_subsumes_witness :
  evictExpired 170
    (map_to_list
       (store (evictExpired 120 (map_to_list (store sweep_cache)) sweep_cache)))
    (evictExpired 120 (map_to_list (store sweep_cache)) sweep_cache)
  = evictExpired 170 (map_to_list (store sweep_cache)) sweep_cache.
Proof.
  apply evictExpired_later_subsumes;
    [reflexivity | reflexivity | reflexivity | | | | ].
  - vm_compute. split; discriminate.
  - vm_compute. split; discriminate.
  - lia.
  - unfold reading. by_evaluation.
Defined.

Lemma Set_sweep_Get_witness :
  (Get dnil "a"
     (evictExpired 150
        (map_to_list (store (Set_ "a" (dint 1) 10 10 [] cache_2)))
        (Set_ "a" (dint 1) 10 10 [] cache_2))).1
  = (if ttl cache_2 <? Sub 150 10 then (dnil, false) else (dint 1, true)).
Proof. apply Set_sweep_Get. reflexivity. Defined.

Lemma evictLRU_scan_first_oldest_witness :
  evictLRU_scan 10
    ([("b", mkEntry (dint 2) 7)] ++
     ("a", mkEntry (dint 1) 3) :: [("c", mkEntry (dint 3) 3)])
  = (3, "a").
Proof.
  apply (evictLRU_scan_first_oldest 10 [("b", mkEntry (dint 2) 7)]
           [("c", mkEntry (dint 3) 3)] "a" (mkEntry (dint 1) 3)).
  - simpl. lia.
  - intros kv Hin. apply list_elem_of_singleton in Hin as ->. simpl. lia.
  - intros kv Hin. apply list_elem_of_singleton in Hin as ->. simpl. lia.
Defined.

Lemma evictLRU_unique_oldest_witness :
  (evictLRU_scan 3 (reverse (map_to_list (store over_b)))).2 = "a" /\
  store (evictLRU 3 (reverse (map_to_list (store over_b))) over_b)
  = delete "a" (store over_b).
Proof.
  apply (evictLRU_unique_oldest 3 (reverse (map_to_list (store over_b)))
           over_b "a" (mkEntry (dint 1) 1)).
  - apply reverse_Permutation.
  - reflexivity.
  - simpl. lia.
  - intros k' e' Hne Hk'. revert Hne. revert k' e' Hk'.
    change (map_Forall (fun k' (e' : entry dyn) => k' ≠ "a" -> 1 < time e')
              (store over_b)).
    by_evaluation.
Defined.

Lemma evictLRU_no_older_entry_witness :
  store (evictLRU 5 (map_to_list (store full_b)) full_b)
  = delete "" (store full_b).
Proof.
  apply (evictLRU_no_older_entry 5 (map_to_list (store full_b)) full_b).
  - reflexivity.
  - change (map_Forall (fun _ (e : entry dyn) => 5 <= time e) (store full_b)).
    by_evaluation.
Defined.

Lemma Get_does_not_refresh_witness :
  (Get dnil "a"
     (Set_ "c" (dint 3) 3 4 (map_to_list (store over_b))
        (Gets dnil ["a"; "a"; "b"] over_b).2)).1
  = (dnil, false).
Proof.
  apply (Get_does_not_refresh dnil ["a"; "a"; "b"] "c" (dint 3) 3 4
           (map_to_list (store over_b)) over_b "a" (mkEntry (dint 1) 1)).
  - reflexivity.
  - reflexivity.
  - reflexivity.
  - simpl. lia.
  - intros k' e' Hne Hk'. revert Hne. revert k' e' Hk'.
    change (map_Forall (fun k' (e' : entry dyn) => k' ≠ "a" -> 1 < time e')
              (store over_b)).
    by_evaluation.
  - discriminate.
Defined.

Lemma Set_refreshes_priority_witness :
  store (evictLRU 3 (map_to_list (store over_b)) over_b) !! "b"
  = Some (mkEntry (dint 2) 2).
Proof.
  apply (Set_refreshes_priority "b" (dint 2) 2 2
           (map_to_list (store over_a)) over_a 3
           (map_to_list (store over_b)) "a" (mkEntry (dint 1) 1)).
  - reflexivity.
  - discriminate.
  - reflexivity.
  - simpl. lia.
  - simpl. lia.
Defined.

Lemma Set_above_capacity_never_evicts_witness :
  size tie_c < len (store tie_c) /\
  len (store tie_b) <= len (store tie_c).
Proof.
  destruct (Set_above_capacity_never_evicts dnil over_run
              (tick_sys tie_b) (tick_sys tie_c)) as (Hover & Hlen & _).
  - reflexivity.
  - reflexivity.
  - vm_compute. reflexivity.
  - split; [exact Hover | exact Hlen].
Defined.

Lemma config_is_fixed_witness :
  size (cache sys_1) = 2 /\ ttl (cache sys_1) = 100 /\ 0 < 2 /\ 0 < 100.
Proof.
  apply (config_is_fixed dnil 2 100 one_sweep sys_0 sys_1); reflexivity.
Defined.

Lemma ttlEnforcer_runs_until_Close_witness :
  ctx_done sys_1 = false /\ enforcer sys_1 ≠ EnforcerReturned.
Proof.
  apply (ttlEnforcer_runs_until_Close dnil 2 100 one_sweep sys_0 sys_1);
    reflexivity.
Defined.

Lemma ttlEnforcer_returned_is_final_witness :
  enforcer sys_closed = EnforcerReturned /\
  sweeps [EvGet (any := dyn) "a"; EvClose] = 0%nat.
Proof.
  apply (ttlEnforcer_returned_is_final dnil [EvGet "a"; EvClose]
           sys_closed sys_closed); reflexivity.
Defined.

Lemma Set_fills_without_eviction_witness :
  len (store over_b) = len (store cache_2) + 2.
Proof.
  apply (Set_fills_without_eviction dnil fill_run
           (tick_sys cache_2) (tick_sys over_b)).
  - reflexivity.
  - repeat constructor; simpl; eauto.
  - by_evaluation.
  - intros k _. apply lookup_empty.
  - vm_compute. discriminate.
Defined.

Lemma Set_then_Keys_witness :
  exists keys,
    (Keys (map_to_list (store over_b)) over_b).1 = Some keys /\
    "b" ∈ keys /\
    Z.of_nat (length keys) <= len (store over_a) + 1.
Proof.
  apply (Set_then_Keys "b" (dint 2) 2 2 (map_to_list (store over_a))
           (map_to_list (store over_b)) over_a).
  reflexivity.
Defined.
